(** * Company Name Duplicate Finder (Finder.py)

    A shallow embedding of the duplicate-detection core of [Finder.py]:
    the column clean-up ([dropna], [unique]), the pair enumeration
    ([itertools.combinations] with r = 2), the comparison loop with its
    threshold filter, the ranking of the resulting frame, and the three
    metrics shown below the table.

    The third-party calls are kept apart from the script's own code:
    - [fuzz.ratio] (thefuzz) is a [Variable] of the engine, so that every
      engine property holds for any scorer; a model of it is given in
      [Module fuzz] for the two properties that are about the scorer;
    - [sort_values] (pandas) is a [Variable] of the engine together with what
      pandas promises for [ascending=False]: the rows are reordered, and the
      key column is descending.  The script asks for no sorting [kind], so
      the default one ('quicksort') is in force. *)

From Stdlib Require Import ZArith QArith Lia Ascii String.
From stdpp Require Import base decidable option list numbers strings gmap sorting.

(** ** Data model *)

(** A cell of the 'Company Name' column as [pd.read_csv] delivers it for a
    text column: a [str], or NaN ([None]) for a missing value. *)
Definition cell : Type := option string.

(** The frame: its column labels, each with its cells. *)
Definition DataFrame : Type := list (string * list cell).

(** One entry of [duplicates] (lines 46-50): the dict with the keys
    'Company Name 1', 'Company Name 2' and 'Similarity Score'. *)
Record duplicate : Type := Duplicate {
  company_name_1 : string;
  company_name_2 : string;
  similarity_score : Z
}.

Global Instance duplicate_eq_dec : EqDecision duplicate.
Proof. solve_decision. Defined.

(** The three [st.metric] values (lines 89-96). *)
Record Summary : Type := {
  total_pairs : nat;
  avg_similarity : Q;
  high_confidence : nat
}.

(** What a run of the script shows. *)
Inductive outcome : Type :=
| AwaitingUpload
    (* line 105: no file yet *)
| MissingColumn (available : list string)
    (* lines 25-26: st.error and the list of columns *)
| PotentialDuplicates (results_df : list duplicate) (stats : Summary)
    (* lines 54-96 *)
| NoDuplicatesFound (threshold : Z).
    (* lines 99-100: st.warning *)

(** ** The pandas and itertools calls of lines 21, 35 and 43 *)

(** [pd.read_csv] with its defaults (line 21) on one field of a text column:
    the empty field and pandas' other missing-value markers are read as
    NaN. *)
Definition default_na_values : list string :=
  [""; "#N/A"; "#N/A N/A"; "#NA"; "-1.#IND"; "-1.#QNAN"; "-NaN"; "-nan";
   "1.#IND"; "1.#QNAN"; "<NA>"; "N/A"; "NA"; "NULL"; "NaN"; "None"; "n/a";
   "nan"; "null"]%string.

Definition read_field (text : string) : cell :=
  if decide (text ∈ default_na_values) then None else Some text.

(** [Series.dropna()]: the cells that are not NaN, in order. *)
Fixpoint dropna (column : list cell) : list string :=
  match column with
  | [] => []
  | Some v :: rest => v :: dropna rest
  | None :: rest => dropna rest
  end.

(** [Series.unique()]: one pass with a hash table of the values seen so far;
    a value is appended to the result the first time it is met. *)
Fixpoint unique_from (seen : gset string) (values : list string) : list string :=
  match values with
  | [] => []
  | v :: rest =>
      if decide (v ∈ seen) then unique_from seen rest
      else v :: unique_from ({[v]} ∪ seen) rest
  end.

Definition unique (values : list string) : list string := unique_from ∅ values.

(** [itertools.combinations(pool, 2)]: the tuples [(pool[i], pool[j])] with
    [i < j], in lexicographic order of the positions. *)
Fixpoint combinations2 {A : Type} (pool : list A) : list (A * A) :=
  match pool with
  | [] => []
  | x :: rest => ((λ y, (x, y)) <$> rest) ++ combinations2 rest
  end.

(** [str(name)] on a value that is a [str] already. *)
Definition str (name : string) : string := name.

(** [df['Company Name']], after the membership test of line 24. *)
Fixpoint column (label : string) (df : DataFrame) : option (list cell) :=
  match df with
  | [] => None
  | (l, cells) :: rest => if decide (l = label) then Some cells else column label rest
  end.

(** The slider of line 15: min 50, max 100, step 5. *)
Definition slider_positions : list Z :=
  (λ k : nat, 50 + 5 * Z.of_nat k)%Z <$> seq 0 11.

(** The cutoff of line 95. *)
Definition high_confidence_cutoff : Z := 95.

(** ** The comparison loop and the statistics *)

(** The state of the loop of lines 40-50: the list [duplicates] it appends
    to, and (ghost) the arguments of every [fuzz.ratio] call made so far. *)
Record scan_state : Type := {
  duplicates : list duplicate;
  ratio_calls : list (string * string)
}.

Definition scan_start : scan_state := {| duplicates := []; ratio_calls := [] |}.

Definition sum_scores (rows : list duplicate) : Z :=
  foldr (λ r acc, similarity_score r + acc)%Z 0%Z rows.

(** [results_df['Similarity Score'].mean()], as an exact rational. *)
Definition mean (rows : list duplicate) : Q :=
  (inject_Z (sum_scores rows) / inject_Z (Z.of_nat (length rows)))%Q.

Definition is_high_confidence (r : duplicate) : bool :=
  bool_decide (high_confidence_cutoff ≤ similarity_score r)%Z.

Section Engine.
(** [fuzz.ratio] *)
Variable ratio : string → string → Z.
(** [DataFrame.sort_values('Similarity Score', ascending=False)] followed
    by [reset_index(drop=True)] *)
Variable sort_values : list duplicate → list duplicate.

(** One iteration of the loop (lines 44-50). *)
Definition scan_step (threshold : Z) (st : scan_state) (pair : string * string)
  : scan_state :=
  let '(name1, name2) := pair in
  let similarity := ratio (str name1) (str name2) in
  {| duplicates :=
       if decide (threshold ≤ similarity)%Z
       then duplicates st ++ [Duplicate name1 name2 similarity]
       else duplicates st;
     ratio_calls := ratio_calls st ++ [(str name1, str name2)] |}.

(** Lines 35-50: clean the column, then compare all pairs. *)
Definition company_names (col : list cell) : list string := unique (dropna col).

Definition find_duplicates (col : list cell) (threshold : Z) : scan_state :=
  foldl (scan_step threshold) scan_start (combinations2 (company_names col)).

(** Lines 89-96. *)
Definition statistics (results_df : list duplicate) : Summary :=
  {| total_pairs := length results_df;
     avg_similarity := mean results_df;
     high_confidence := length (filter (λ r, is_high_confidence r = true) results_df) |}.

(** Lines 53-100: the branch on [duplicates]. *)
Definition report (found : list duplicate) (threshold : Z) : outcome :=
  match found with
  | [] => NoDuplicatesFound threshold
  | _ :: _ =>
      let results_df := sort_values found in
      PotentialDuplicates results_df (statistics results_df)
  end.

(** Lines 18-105. *)
Definition finder (uploaded_file : option DataFrame) (threshold : Z) : outcome :=
  match uploaded_file with
  | None => AwaitingUpload
  | Some df =>
      match column "Company Name" df with
      | None => MissingColumn (fst <$> df)
      | Some col => report (duplicates (find_duplicates col threshold)) threshold
      end
  end.

(** The ResultSet of a run: the rows of the table that is shown, none
    when there is no table. *)
Definition result_set (o : outcome) : list duplicate :=
  match o with
  | PotentialDuplicates results_df _ => results_df
  | _ => []
  end.

Definition detect (col : list cell) (threshold : Z) : list duplicate :=
  result_set (report (duplicates (find_duplicates col threshold)) threshold).
End Engine.

(** ** The scorer *)

Module fuzz.
(** [fuzz.ratio] belongs to the third-party package thefuzz: it is called on
    line 44 and its code is not part of the repository.  The spec (4.1)
    describes the scorer as the "ratio of matched characters over total
    length, as used by classic fuzzy-matching libraries", normalised to
    0-100, with [score("","")] being 100.  That is the Indel similarity
    thefuzz returns: with [lcs] the length of a longest common subsequence,
    twice [lcs] characters are matched out of [len(s1) + len(s2)], and the
    percentage is rounded to the nearest integer. *)

(** Modelled from the spec: the number of matched characters of thefuzz's
    scorer (absent from the repository), the length of a longest common
    subsequence of the two strings. *)
Fixpoint lcs (s1 s2 : list ascii) : nat :=
  match s1 with
  | [] => 0
  | c1 :: r1 =>
      (fix lcs_row (s2 : list ascii) : nat :=
         match s2 with
         | [] => 0
         | c2 :: r2 =>
             if decide (c1 = c2) then S (lcs r1 r2)
             else Nat.max (lcs r1 s2) (lcs_row r2)
         end) s2
  end.

(** Modelled from the spec: the rounding of the percentage to an integer
    score, Python's [round] (halves go to the even neighbour), on the exact
    fraction [num / den] with [den > 0]. *)
Definition round_half_even (num den : Z) : Z :=
  let q := (num / den)%Z in
  let r := (num mod den)%Z in
  if decide (2 * r < den)%Z then q
  else if decide (den < 2 * r)%Z then (q + 1)%Z
  else if Z.even q then q else (q + 1)%Z.

(** Modelled from the spec: [fuzz.ratio] of thefuzz (absent from the
    repository): 100 for two empty strings, otherwise the matched share
    [(lensum - dist) / lensum] as a rounded percentage, where [dist] counts
    the characters of both strings outside a longest common subsequence.
    The percentage is computed as an exact fraction where the library uses
    a double. *)
Definition ratio (s1 s2 : string) : Z :=
  let a := list_ascii_of_string s1 in
  let b := list_ascii_of_string s2 in
  let lensum := Z.of_nat (length a + length b) in
  let dist := (lensum - 2 * Z.of_nat (lcs a b))%Z in
  if decide (lensum = 0)%Z then 100%Z
  else round_half_even (100 * (lensum - dist)) lensum.
End fuzz.

(** ** Two sorts that meet what pandas promises (neither is pandas' own) *)

Module Sorting.
Definition by_score_desc (r1 r2 : duplicate) : Prop :=
  (similarity_score r2 ≤ similarity_score r1)%Z.

Definition by_score_asc (r1 r2 : duplicate) : Prop :=
  (similarity_score r1 ≤ similarity_score r2)%Z.

Global Instance by_score_desc_dec r1 r2 : Decision (by_score_desc r1 r2).
Proof. unfold by_score_desc. apply _. Defined.

Global Instance by_score_asc_dec r1 r2 : Decision (by_score_asc r1 r2).
Proof. unfold by_score_asc. apply _. Defined.

(** A merge sort on the descending order. *)
Definition sort_values_merge (rows : list duplicate) : list duplicate :=
  merge_sort by_score_desc rows.

(** An ascending merge sort read backwards: descending as well, with the
    rows of equal score in another order.  Like [sort_values_merge] it is
    not the algorithm pandas runs on line 55, only a second function with
    the same contract: where a property is proved for every such function,
    the two show that it does not hinge on the order of ties. *)
Definition sort_values_flip (rows : list duplicate) : list duplicate :=
  reverse (merge_sort by_score_asc rows).
End Sorting.

(** ** Specification-side vocabulary *)

(** [a] stands before [b] in [l]. *)
Definition before {A : Type} (a b : A) (l : list A) : Prop :=
  ∃ pre post, l = pre ++ a :: post ∧ b ∈ post.

(** The position of the first cell holding [v]. *)
Definition first_index (v : string) (col : list cell) : option nat :=
  fst <$> list_find (λ c, c = Some v) col.

(** Every enumerated pair with its score, and those that pass the filter. *)
Definition scored (ratio : string → string → Z) (pairs : list (string * string))
  : list duplicate :=
  (λ p, Duplicate p.1 p.2 (ratio (str p.1) (str p.2))) <$> pairs.

Definition passing (threshold : Z) (rows : list duplicate) : list duplicate :=
  filter (λ r, threshold ≤ similarity_score r)%Z rows.

Definition names_of (r : duplicate) : string * string :=
  (company_name_1 r, company_name_2 r).


(** The unordered pair [{a, b}] has a row in [rows]. *)
Definition appears (a b : string) (rows : list duplicate) : Prop :=
  ∃ r, r ∈ rows ∧ (names_of r = (a, b) ∨ names_of r = (b, a)).

(** What the script relies on from [sort_values(..., ascending=False)]. *)
Definition sorts_descending (sort_values : list duplicate → list duplicate) : Prop :=
  (∀ rows, sort_values rows ≡ₚ rows) ∧
  (∀ rows, Sorted Sorting.by_score_desc (sort_values rows)).

(** ** The colour coding of the table (lines 63-75) *)

(** [highlight_similarity] (lines 63-70): the CSS of one score cell. *)
Definition highlight_similarity (val : Z) : string :=
  let color :=
    if decide (95 ≤ val)%Z then "#ff4b4b"
    else if decide (85 ≤ val)%Z then "#ffa500"
    else "#ffd700" in
  "background-color: " +:+ color +:+ "; color: white; font-weight: bold".

(** [results_df.style.applymap(highlight_similarity,
    subset=['Similarity Score'])] (lines 72-75): the style of every cell of
    the score column, in table order. *)
Definition styled_scores (results_df : list duplicate) : list string :=
  (λ r, highlight_similarity (similarity_score r)) <$> results_df.

(** The three styles a cell can get, by the comments of lines 65-69. *)
Definition very_high_style : string :=
  "background-color: #ff4b4b; color: white; font-weight: bold".

Definition high_style : string :=
  "background-color: #ffa500; color: white; font-weight: bold".

Definition moderate_style : string :=
  "background-color: #ffd700; color: white; font-weight: bold".

(** How strong a match a style signals: red over orange over yellow. *)
Definition severity (style : string) : nat :=
  if decide (style = very_high_style) then 2
  else if decide (style = high_style) then 1
  else 0.

(** ** Sample inputs *)

(** The column of the spec's null/duplicate example. *)
Definition acme_column : list cell :=
  [Some "Acme Inc"; Some "Acme Inc"; None; Some "Acme Co"]%string.

Definition acme_frame : DataFrame := [("Company Name"%string, acme_column)].

(** Three names whose three pairs all score 50. *)
Definition tied_column : list cell := [Some "ab"; Some "ac"; Some "bc"]%string.

(** One name, met twice, and a null. *)
Definition lone_column : list cell := [Some "Acme"; None; Some "Acme"]%string.

Definition lone_frame : DataFrame := [("Company Name"%string, lone_column)].

(** Three spellings of one name: the pairs score 97, 64 and 62. *)
Definition graded_column : list cell :=
  [Some "Acme Incorporated"; Some "Acme Incorporated."; Some "Acme Inc"]%string.

(** A frame without the expected column. *)
Definition nameless_frame : DataFrame :=
  [("Name"%string, acme_column); ("City"%string, [None; None; None; None])].


(** * Properties *)

(** ** Cleaning the column *)

Section Cleaning.
Implicit Types (col : list cell) (values : list string) (seen : gset string).

Lemma elem_of_dropna col v : v ∈ dropna col ↔ Some v ∈ col.
Proof.
  induction col as [|[w|] col IH]; simpl.
  - split; intros H; inversion H.
  - rewrite !elem_of_cons, IH. naive_solver.
  - rewrite elem_of_cons, IH. naive_solver.
Qed.

(** A split of the cleaned column comes from a split of the column. *)
Lemma dropna_split col l1 v l2 :
  dropna col = l1 ++ v :: l2 →
  ∃ c1 c2, col = c1 ++ Some v :: c2 ∧ dropna c1 = l1 ∧ dropna c2 = l2.
Proof.
  revert l1. induction col as [|[w|] col IH]; intros l1; simpl.
  - by destruct l1.
  - destruct l1 as [|x l1]; simpl; intros [= -> Hrest].
    + by exists [], col.
    + destruct (IH _ Hrest) as (c1 & c2 & -> & <- & <-).
      by exists (Some x :: c1), c2.
  - intros Hrest. destruct (IH _ Hrest) as (c1 & c2 & -> & <- & <-).
    by exists (None :: c1), c2.
Qed.

Lemma elem_of_unique_from seen values v :
  v ∈ unique_from seen values ↔ v ∈ values ∧ v ∉ seen.
Proof.
  revert seen. induction values as [|w values IH]; intros seen; simpl.
  - split; [intros H; inversion H | intros [H _]; inversion H].
  - destruct (decide (w ∈ seen)) as [Hw|Hw].
    + rewrite IH, elem_of_cons. naive_solver.
    + rewrite !elem_of_cons, IH.
      destruct (decide (v = w)) as [->|Hne]; set_solver.
Qed.

Lemma NoDup_unique_from seen values : NoDup (unique_from seen values).
Proof.
  revert seen. induction values as [|w values IH]; intros seen; simpl.
  - constructor.
  - destruct (decide (w ∈ seen)); [apply IH|].
    constructor; [|apply IH].
    rewrite elem_of_unique_from. set_solver.
Qed.

(** Where a value stands in the result of [unique_from], it was met for the
    first time before anything that follows it in the result. *)
Lemma unique_from_split seen values pre a post :
  unique_from seen values = pre ++ a :: post →
  ∃ l1 l2, values = l1 ++ a :: l2 ∧ (a ∉ l1) ∧
           ∀ b, b ∈ post → (b ∉ l1) ∧ b ∈ l2.
Proof.
  revert seen pre. induction values as [|w values IH]; intros seen pre; simpl.
  - by destruct pre.
  - destruct (decide (w ∈ seen)) as [Hw|Hw].
    + intros Heq.
      assert (Hin : ∀ x, x ∈ a :: post → x ≠ w).
      { intros x Hx ->.
        assert (Hx' : w ∈ unique_from seen values)
          by (rewrite Heq, elem_of_app; by right).
        apply elem_of_unique_from in Hx'. tauto. }
      destruct (IH _ _ Heq) as (l1 & l2 & -> & Ha & Hpost).
      exists (w :: l1), l2. split_and!; [done| |].
      * rewrite not_elem_of_cons. split; [|done]. apply Hin. by left.
      * intros b Hb. destruct (Hpost b Hb) as [Hb1 Hb2].
        split; [|done]. rewrite not_elem_of_cons. split; [|done].
        apply Hin. by right.
    + destruct pre as [|p pre]; simpl; intros [= <- Heq].
      * exists [], values. split_and!; [done|apply not_elem_of_nil|].
        intros b Hb. split; [apply not_elem_of_nil|].
        rewrite <- Heq in Hb. apply elem_of_unique_from in Hb. tauto.
      * assert (Hin : ∀ x, x ∈ a :: post → x ≠ w).
        { intros x Hx ->.
          assert (Hx' : w ∈ unique_from ({[w]} ∪ seen) values)
            by (rewrite Heq, elem_of_app; by right).
          apply elem_of_unique_from in Hx'. set_solver. }
        destruct (IH _ _ Heq) as (l1 & l2 & -> & Ha & Hpost).
        exists (w :: l1), l2. split_and!; [done| |].
        -- rewrite not_elem_of_cons. split; [|done]. apply Hin. by left.
        -- intros b Hb. destruct (Hpost b Hb) as [Hb1 Hb2].
           split; [|done]. rewrite not_elem_of_cons. split; [|done].
           apply Hin. by right.
Qed.

Lemma elem_of_company_names col v : v ∈ company_names col ↔ Some v ∈ col.
Proof.
  unfold company_names, unique.
  rewrite elem_of_unique_from, elem_of_dropna. set_solver.
Qed.

Lemma NoDup_company_names col : NoDup (company_names col).
Proof. apply NoDup_unique_from. Qed.

(** The first position of a value, read off a split of the column. *)
Lemma first_index_split c1 v c2 :
  Some v ∉ c1 → first_index v (c1 ++ Some v :: c2) = Some (length c1).
Proof.
  intros Hv. unfold first_index.
  induction c1 as [|c c1 IH]; simpl.
  - by rewrite decide_True.
  - apply not_elem_of_cons in Hv as [Hc Hv].
    rewrite decide_False by done.
    specialize (IH Hv).
    destruct (list_find _ (c1 ++ Some v :: c2)) as [[i x]|]; simpl in *; [|done].
    by injection IH as ->.
Qed.

(** The order of [company_names] is the order of the first occurrences. *)
Lemma company_names_first_index col a b :
  before a b (company_names col) →
  ∃ i j, first_index a col = Some i ∧ first_index b col = Some j ∧ i < j.
Proof.
  intros (pre & post & Heq & Hb).
  assert (Hab : Some a ≠ Some b).
  { intros [= ->]. pose proof (NoDup_company_names col) as Hnd.
    rewrite Heq in Hnd. apply NoDup_app in Hnd as (_ & _ & Hnd).
    by apply NoDup_cons in Hnd as [Hnd _]. }
  destruct (unique_from_split _ _ _ _ _ Heq) as (l1 & l2 & Hsplit & Ha & Hpost).
  destruct (Hpost b Hb) as [Hb1 Hb2].
  destruct (dropna_split _ _ _ _ Hsplit) as (c1 & c2 & -> & <- & <-).
  rewrite elem_of_dropna in Ha, Hb1, Hb2.
  exists (length c1). rewrite (first_index_split _ _ _ Ha).
  apply list_elem_of_split in Hb2 as (d1 & d2 & ->).
  clear Hsplit Heq Hpost.
  assert (Hfirst : ∃ e1 e2, c1 ++ Some a :: d1 ++ Some b :: d2 = e1 ++ Some b :: e2
                            ∧ (Some b ∉ e1) ∧ length c1 < length e1).
  { clear Hb.
    destruct (decide (Some b ∈ d1)) as [Hin|Hnin].
    - apply list_elem_of_split_l in Hin as (f1 & f2 & -> & Hnf).
      exists (c1 ++ Some a :: f1), (f2 ++ Some b :: d2). split_and!.
      + by rewrite <- !app_assoc.
      + rewrite not_elem_of_app, not_elem_of_cons. by split_and!.
      + rewrite length_app. simpl. lia.
    - exists (c1 ++ Some a :: d1), d2. split_and!.
      + by rewrite <- !app_assoc.
      + rewrite not_elem_of_app, not_elem_of_cons. by split_and!.
      + rewrite length_app. simpl. lia. }
  destruct Hfirst as (e1 & e2 & -> & He & Hlen).
  exists (length e1). by rewrite (first_index_split _ _ _ He).
Qed.
End Cleaning.

(** ** Enumerating the pairs *)

Section Enumeration.
Context {A : Type}.
Implicit Types (l : list A) (a b x : A).

Lemma elem_of_combinations2_cons x l a b :
  (a, b) ∈ combinations2 (x :: l) ↔ (a = x ∧ b ∈ l) ∨ (a, b) ∈ combinations2 l.
Proof.
  simpl. rewrite elem_of_app, list_elem_of_fmap.
  split; intros [H|H]; auto.
  - destruct H as (y & [= -> ->] & Hy). auto.
  - destruct H as [-> Hb]. left. by exists b.
Qed.

Lemma elem_of_combinations2_both l a b :
  (a, b) ∈ combinations2 l → a ∈ l ∧ b ∈ l.
Proof.
  induction l as [|x l IH]; [intros H; inversion H|].
  rewrite elem_of_combinations2_cons, !elem_of_cons. naive_solver.
Qed.

(** The enumerated tuples are the ordered picks of two positions. *)
Lemma elem_of_combinations2 l a b : (a, b) ∈ combinations2 l ↔ before a b l.
Proof.
  unfold before. induction l as [|x l IH].
  - split; [intros H; inversion H | intros (pre & post & H & _); by destruct pre].
  - rewrite elem_of_combinations2_cons, IH. split.
    + intros [[-> Hb] | (pre & post & -> & Hb)].
      * by exists [], l.
      * by exists (x :: pre), post.
    + intros ([|p pre] & post & Heq & Hb); simpl in Heq; injection Heq as -> ->.
      * by left.
      * right. by exists pre, post.
Qed.

Lemma length_combinations2 l :
  length (combinations2 l) = length l * (length l - 1) / 2.
Proof.
  assert (H : 2 * length (combinations2 l) = length l * (length l - 1)).
  { induction l as [|x l IH]; [done|].
    simpl. rewrite length_app, length_fmap. nia. }
  rewrite <- H, Nat.mul_comm. symmetry. apply Nat.div_mul. done.
Qed.



Lemma combinations2_one_way l a b :
  NoDup l → (a, b) ∈ combinations2 l → (b, a) ∉ combinations2 l.
Proof.
  induction 1 as [|x l Hx Hl IH]; [intros H; inversion H|].
  rewrite !elem_of_combinations2_cons.
  intros [[-> Hb] | Hab] [[-> Ha] | Hba]; try done.
  - apply elem_of_combinations2_both in Hba. tauto.
  - apply elem_of_combinations2_both in Hab. tauto.
  - by apply IH.
Qed.

Lemma combinations2_covers l a b :
  a ∈ l → b ∈ l → a ≠ b → (a, b) ∈ combinations2 l ∨ (b, a) ∈ combinations2 l.
Proof.
  induction l as [|x l IH]; [intros H; inversion H|].
  rewrite !elem_of_cons, !elem_of_combinations2_cons. naive_solver.
Qed.
End Enumeration.

(** ** The comparison loop *)

Section Scan.
Variable ratio : string → string → Z.
Implicit Types (pairs : list (string * string)) (st : scan_state).

(** Loop invariant: after the pairs [pairs], the state holds what it held
    before, then the passing rows of [pairs], and one call per pair. *)
Lemma foldl_scan_step threshold st pairs :
  foldl (scan_step ratio threshold) st pairs
  = {| duplicates := duplicates st ++ passing threshold (scored ratio pairs);
       ratio_calls := ratio_calls st ++ pairs |}.
Proof.
  revert st. induction pairs as [|[n1 n2] pairs IH]; intros [ds cs]; simpl.
  - unfold passing, scored. simpl. by rewrite !app_nil_r.
  - rewrite IH. unfold passing, scored, str. simpl.
    rewrite filter_cons. simpl.
    destruct (decide (threshold ≤ ratio n1 n2)%Z); simpl;
      by rewrite <- ?app_assoc.
Qed.

Lemma find_duplicates_rows col threshold :
  duplicates (find_duplicates ratio col threshold)
  = passing threshold (scored ratio (combinations2 (company_names col))).
Proof. unfold find_duplicates. by rewrite foldl_scan_step. Qed.

Lemma find_duplicates_calls col threshold :
  ratio_calls (find_duplicates ratio col threshold)
  = combinations2 (company_names col).
Proof. unfold find_duplicates. by rewrite foldl_scan_step. Qed.

Lemma elem_of_passing threshold rows r :
  r ∈ passing threshold rows ↔ r ∈ rows ∧ (threshold ≤ similarity_score r)%Z.
Proof. unfold passing. by rewrite list_elem_of_filter, (comm and). Qed.

Lemma elem_of_scored pairs r :
  r ∈ scored ratio pairs ↔
  names_of r ∈ pairs ∧
  similarity_score r = ratio (company_name_1 r) (company_name_2 r).
Proof.
  unfold scored, names_of, str. rewrite list_elem_of_fmap. split.
  - intros ([a b] & -> & Hin). by simpl.
  - destruct r as [a b s]. simpl. intros [Hin ->]. by exists (a, b).
Qed.


Lemma scores_of_passing threshold pairs :
  similarity_score <$> passing threshold (scored ratio pairs)
  = (λ p, ratio (str p.1) (str p.2))
      <$> filter (λ p, threshold ≤ ratio (str p.1) (str p.2))%Z pairs.
Proof.
  unfold passing, scored.
  induction pairs as [|[a b] pairs IH]; [done|].
  rewrite fmap_cons, !filter_cons. simpl.
  destruct (decide (threshold ≤ ratio (str a) (str b))%Z);
    [rewrite !fmap_cons; f_equal|]; exact IH.
Qed.

(** Raising the threshold lets fewer rows pass. *)
Lemma length_passing_mono (t1 t2 : Z) rows :
  (t1 ≤ t2)%Z → length (passing t2 rows) ≤ length (passing t1 rows).
Proof.
  intros Ht. unfold passing. induction rows as [|r rows IH]; [done|].
  rewrite !filter_cons.
  destruct (decide (t2 ≤ similarity_score r)%Z),
           (decide (t1 ≤ similarity_score r)%Z); simpl; lia.
Qed.
End Scan.

(** ** The two sorts meet the contract *)

(** The sum and the count of lines 93 and 95, read on the score column. *)
Lemma sum_scores_foldr rows :
  sum_scores rows = foldr Z.add 0%Z (similarity_score <$> rows).
Proof.
  unfold sum_scores. induction rows as [|r rows IH]; [done|].
  rewrite fmap_cons. simpl. by rewrite IH.
Qed.

Lemma high_confidence_count rows :
  length (filter (λ r, is_high_confidence r = true) rows)
  = length (filter (λ s, (95 ≤ s)%Z) (similarity_score <$> rows)).
Proof.
  induction rows as [|r rows IH]; [done|].
  rewrite fmap_cons, !filter_cons.
  assert (Hiff : is_high_confidence r = true ↔ (95 ≤ similarity_score r)%Z).
  { unfold is_high_confidence, high_confidence_cutoff.
    by rewrite bool_decide_eq_true. }
  destruct (decide (is_high_confidence r = true)),
           (decide (95 ≤ similarity_score r)%Z); try tauto.
  cbn [length]. by f_equal.
Qed.

Section Sorts.
Import Sorting.

Local Instance by_score_desc_total : Total by_score_desc.
Proof. intros r1 r2. unfold by_score_desc. lia. Qed.

Local Instance by_score_asc_total : Total by_score_asc.
Proof. intros r1 r2. unfold by_score_asc. lia. Qed.

Lemma sort_values_merge_ok : sorts_descending sort_values_merge.
Proof.
  split; intros rows; unfold sort_values_merge.
  - apply merge_sort_Permutation.
  - apply Sorted_merge_sort, _.
Qed.

Lemma sort_values_flip_ok : sorts_descending sort_values_flip.
Proof.
  split; intros rows; unfold sort_values_flip.
  - by rewrite reverse_Permutation, merge_sort_Permutation.
  - apply (Sorted_reverse by_score_asc), Sorted_merge_sort, _.
Qed.

Global Instance by_score_desc_trans : Transitive by_score_desc.
Proof. intros r1 r2 r3. unfold by_score_desc. lia. Qed.
End Sorts.

(** ** The engine *)

Section EngineProperties.
Variable ratio : string → string → Z.
Variable sort_values : list duplicate → list duplicate.
Hypothesis sort_values_ok : sorts_descending sort_values.

Implicit Types (col : list cell) (threshold : Z) (r : duplicate).

(** The table holds the passing rows of the enumeration, reordered. *)
Lemma detect_Permutation col threshold :
  detect ratio sort_values col threshold
  ≡ₚ duplicates (find_duplicates ratio col threshold).
Proof.
  unfold detect, report.
  destruct (duplicates _) as [|r rows]; [done|].
  simpl. apply sort_values_ok.
Qed.

Lemma elem_of_detect col threshold r :
  r ∈ detect ratio sort_values col threshold ↔
  names_of r ∈ combinations2 (company_names col) ∧
  similarity_score r = ratio (company_name_1 r) (company_name_2 r) ∧
  (threshold ≤ similarity_score r)%Z.
Proof.
  rewrite detect_Permutation, find_duplicates_rows.
  rewrite elem_of_passing, elem_of_scored. tauto.
Qed.


Lemma detect_sorted col threshold :
  StronglySorted Sorting.by_score_desc (detect ratio sort_values col threshold).
Proof.
  unfold detect, report.
  destruct (duplicates _) as [|r rows]; simpl; [constructor|].
  apply Sorted_StronglySorted; [apply _|]. apply sort_values_ok.
Qed.


(** C2: an unordered pair of distinct candidates has a row in the ResultSet
    exactly when the score the loop computes for it (the scorer applied in
    enumeration order) is at least the threshold, the bound included; every
    row carries that score; and for a symmetric scorer the orientation does
    not matter. *)
Theorem listed_iff_score_reaches_threshold col threshold :
  let names := company_names col in
  let results := detect ratio sort_values col threshold in
  (∀ a b, before a b names →
     (appears a b results ↔ (threshold ≤ ratio (str a) (str b))%Z)) ∧
  (∀ r, r ∈ results →
     before (company_name_1 r) (company_name_2 r) names ∧
     similarity_score r = ratio (str (company_name_1 r)) (str (company_name_2 r))) ∧
  ((∀ x y, ratio x y = ratio y x) →
   ∀ a b, a ∈ names → b ∈ names → a ≠ b →
     (appears a b results ↔ (threshold ≤ ratio (str a) (str b))%Z)).
Proof.
  intros names results.
  pose proof (NoDup_company_names col) as Hnd. fold names in Hnd.
  assert (Horiented : ∀ a b, before a b names →
     (appears a b results ↔ (threshold ≤ ratio (str a) (str b))%Z)).
  { intros a b Hab%elem_of_combinations2. unfold appears, str. split.
    - intros ([a' b' s] & Hin & Hnames).
      apply elem_of_detect in Hin as (Hin & Hs & Ht).
      unfold names_of in *. simpl in *.
      destruct Hnames as [[= -> ->]|[= -> ->]]; [congruence|].
      by destruct (combinations2_one_way names a b Hnd Hab).
    - intros Ht. exists (Duplicate a b (ratio a b)). split; [|by left].
      by apply elem_of_detect. }
  split_and!; [done| |].
  - intros r (Hin & Hs & _)%elem_of_detect. split; [|done].
    by apply elem_of_combinations2.
  - intros Hsym a b Ha Hb Hne.
    destruct (combinations2_covers names a b Ha Hb Hne)
      as [H%elem_of_combinations2|H%elem_of_combinations2].
    + by apply Horiented.
    + rewrite Hsym, <- (Horiented b a H). unfold appears. naive_solver.
Qed.


(** C4: with the column fixed, the ResultSet at a higher threshold is not
    longer than at a lower one. *)
Theorem raising_threshold_shrinks col (t1 t2 : Z) :
  (t1 ≤ t2)%Z →
  length (detect ratio sort_values col t2) ≤ length (detect ratio sort_values col t1).
Proof.
  intros Ht. rewrite !detect_Permutation, !find_duplicates_rows.
  by apply length_passing_mono.
Qed.
(** C5: before any scoring the nulls are dropped (an empty field is read as
    a null) and equal strings are kept once, so the scorer is only called on
    candidates; for ["Acme Inc", "Acme Inc", None, "Acme Co"] at threshold 80
    it is called once, on ("Acme Inc", "Acme Co"). *)
Theorem column_cleaned_before_scoring col threshold :
  let names := company_names col in
  (∀ v, v ∈ names ↔ Some v ∈ col) ∧
  NoDup names ∧
  (∀ fields, ""%string ∉ company_names (read_field <$> fields)) ∧
  (∀ a b, (a, b) ∈ ratio_calls (find_duplicates ratio col threshold) →
     a ∈ names ∧ b ∈ names) ∧
  ratio_calls (find_duplicates ratio
     [Some "Acme Inc"; Some "Acme Inc"; None; Some "Acme Co"]%string 80)
  = [("Acme Inc", "Acme Co")]%string.
Proof.
  intros names. split_and!.
  - apply elem_of_company_names.
  - apply NoDup_company_names.
  - intros fields. rewrite elem_of_company_names, list_elem_of_fmap.
    intros (text & Hread & _). unfold read_field in Hread.
    destruct (decide (text ∈ default_na_values)) as [|Hna]; [done|].
    injection Hread as <-. apply Hna. unfold default_na_values. by left.
  - intros a b. rewrite find_duplicates_calls.
    apply elem_of_combinations2_both.
  - rewrite find_duplicates_calls. by vm_compute.
Qed.

(** C9: the Summary is correct with respect to the ResultSet.  With
    [scores] the scores of the enumerated pairs that reach the threshold:
    when there is one at least, the table is shown, its score column is
    [scores] reordered, the total is the number of its rows, the average is
    the sum of its scores divided by their number (which is not zero), and
    the high-confidence count is the number of its scores of 95 or more;
    when there is none, no table and no statistics are produced, so nothing
    is divided. *)
Theorem summary_matches_table df col threshold :
  column "Company Name" df = Some col →
  let scores :=
    (λ p, ratio (str p.1) (str p.2))
      <$> filter (λ p, (threshold ≤ ratio (str p.1) (str p.2))%Z)
            (combinations2 (company_names col)) in
  match finder ratio sort_values (Some df) threshold with
  | PotentialDuplicates results_df stats =>
      let shown := similarity_score <$> results_df in
      shown ≡ₚ scores ∧ length shown ≠ 0 ∧
      total_pairs stats = length shown ∧
      (avg_similarity stats
       == inject_Z (foldr Z.add 0%Z shown) / inject_Z (Z.of_nat (length shown)))%Q ∧
      high_confidence stats = length (filter (λ s, (95 ≤ s)%Z) shown)
  | NoDuplicatesFound t => scores = [] ∧ t = threshold
  | _ => False
  end.
Proof.
  intros Hcol scores. subst scores. rewrite <- scores_of_passing.
  simpl. rewrite Hcol, find_duplicates_rows. unfold report.
  destruct (passing _ _) as [|r rows]; [done|].
  set (results_df := sort_values (r :: rows)).
  assert (Hperm : results_df ≡ₚ r :: rows) by apply sort_values_ok.
  cbn zeta. unfold statistics.
  cbn [total_pairs avg_similarity high_confidence].
  split_and!.
  - by rewrite Hperm.
  - rewrite length_fmap, Hperm. done.
  - by rewrite length_fmap.
  - unfold mean. by rewrite sum_scores_foldr, length_fmap.
  - apply high_confidence_count.
Qed.

(** C10: the candidates stand in the order of their first occurrences in the
    column, and in every row of the ResultSet the left name first occurs in
    the column strictly before the right name does.  (The output is a
    function of the column and the threshold by construction.) *)
Theorem first_occurrence_order col threshold :
  let names := company_names col in
  let results := detect ratio sort_values col threshold in
  (∀ a b, before a b names →
     ∃ i j, first_index a col = Some i ∧ first_index b col = Some j ∧ i < j) ∧
  (∀ r, r ∈ results →
     ∃ i j, first_index (company_name_1 r) col = Some i ∧
            first_index (company_name_2 r) col = Some j ∧ i < j).
Proof.
  intros names results. split.
  - apply company_names_first_index.
  - intros r [Hin _]%elem_of_detect.
    by apply company_names_first_index, elem_of_combinations2.
Qed.
End EngineProperties.

(** ** The scorer *)

Section Scorer.
Import fuzz.
Implicit Types (s t : list ascii).

Lemma lcs_nil_r s : lcs s [] = 0.
Proof. by destruct s. Qed.

Lemma lcs_cons_cons c1 r1 c2 r2 :
  lcs (c1 :: r1) (c2 :: r2)
  = if decide (c1 = c2) then S (lcs r1 r2)
    else Nat.max (lcs r1 (c2 :: r2)) (lcs (c1 :: r1) r2).
Proof. reflexivity. Qed.

Lemma lcs_comm s t : lcs s t = lcs t s.
Proof.
  revert t. induction s as [|c1 r1 IHs]; intros t.
  - by rewrite lcs_nil_r.
  - induction t as [|c2 r2 IHt]; [done|].
    rewrite !lcs_cons_cons.
    destruct (decide (c1 = c2)) as [->|Hne].
    + rewrite decide_True by done. by rewrite IHs.
    + rewrite decide_False by congruence.
      by rewrite IHs, IHt, Nat.max_comm.
Qed.

Lemma lcs_diag s : lcs s s = length s.
Proof.
  induction s as [|c r IH]; [done|].
  rewrite lcs_cons_cons, decide_True by done. simpl. by rewrite IH.
Qed.

Lemma ratio_comm (a b : string) : ratio a b = ratio b a.
Proof.
  unfold ratio.
  by rewrite (lcs_comm (list_ascii_of_string a)), (Nat.add_comm (length _)).
Qed.

Lemma round_half_even_whole (q den : Z) :
  (0 < den)%Z → round_half_even (q * den) den = q.
Proof.
  intros Hden. unfold round_half_even.
  rewrite Z.mod_mul, Z.div_mul by lia.
  rewrite decide_True by lia. done.
Qed.
End Scorer.

(** C6: the scorer is symmetric, so the score stored in a row is also the
    score of the row's two names taken in the other order. *)
Theorem ratio_symmetric (a b : string) :
  fuzz.ratio a b = fuzz.ratio b a ∧
  ∀ col threshold r,
    r ∈ duplicates (find_duplicates fuzz.ratio col threshold) →
    similarity_score r = fuzz.ratio (company_name_2 r) (company_name_1 r).
Proof.
  split; [apply ratio_comm|].
  intros col threshold r.
  rewrite find_duplicates_rows, elem_of_passing, elem_of_scored.
  intros [[_ ->] _]. apply ratio_comm.
Qed.

(** C7: the scorer gives 100 to any string paired with itself, the empty
    string included. *)
Theorem ratio_reflexive (a : string) :
  fuzz.ratio a a = 100%Z ∧ fuzz.ratio "" "" = 100%Z.
Proof.
  split; [|done].
  unfold fuzz.ratio. rewrite lcs_diag.
  set (n := length (list_ascii_of_string a)).
  destruct (decide (Z.of_nat (n + n) = 0)%Z) as [|Hn]; [done|].
  replace (100 * (Z.of_nat (n + n) - (Z.of_nat (n + n) - 2 * Z.of_nat n)))%Z
    with (100 * Z.of_nat (n + n))%Z by lia.
  apply round_half_even_whole. lia.
Qed.

(** ** The engine on the sample inputs *)


Lemma listed_iff_score_reaches_threshold_witness :
  sorts_descending Sorting.sort_values_merge ∧
  let names := company_names tied_column in
  let results := detect fuzz.ratio Sorting.sort_values_merge tied_column 50 in
  (∀ a b, before a b names →
     (appears a b results ↔ (50 ≤ fuzz.ratio (str a) (str b))%Z)) ∧
  (∀ r, r ∈ results →
     before (company_name_1 r) (company_name_2 r) names ∧
     similarity_score r
     = fuzz.ratio (str (company_name_1 r)) (str (company_name_2 r))) ∧
  ((∀ x y, fuzz.ratio x y = fuzz.ratio y x) →
   ∀ a b, a ∈ names → b ∈ names → a ≠ b →
     (appears a b results ↔ (50 ≤ fuzz.ratio (str a) (str b))%Z)).
Proof.
  split; [exact sort_values_merge_ok|].
  exact (listed_iff_score_reaches_threshold fuzz.ratio Sorting.sort_values_merge
           sort_values_merge_ok tied_column 50).
Defined.


Lemma raising_threshold_shrinks_witness :
  sorts_descending Sorting.sort_values_merge ∧ (60 ≤ 80)%Z ∧
  length (detect fuzz.ratio Sorting.sort_values_merge acme_column 80)
  ≤ length (detect fuzz.ratio Sorting.sort_values_merge acme_column 60).
Proof.
  split; [exact sort_values_merge_ok|]. split; [lia|].
  apply (raising_threshold_shrinks fuzz.ratio Sorting.sort_values_merge
           sort_values_merge_ok acme_column 60 80).
  lia.
Defined.

Lemma summary_matches_table_witness :
  sorts_descending Sorting.sort_values_merge ∧
  column "Company Name" acme_frame = Some acme_column ∧
  let scores :=
    (λ p, fuzz.ratio (str p.1) (str p.2))
      <$> filter (λ p, (60 ≤ fuzz.ratio (str p.1) (str p.2))%Z)
            (combinations2 (company_names acme_column)) in
  match finder fuzz.ratio Sorting.sort_values_merge (Some acme_frame) 60 with
  | PotentialDuplicates results_df stats =>
      let shown := similarity_score <$> results_df in
      shown ≡ₚ scores ∧ length shown ≠ 0 ∧
      total_pairs stats = length shown ∧
      (avg_similarity stats
       == inject_Z (foldr Z.add 0%Z shown) / inject_Z (Z.of_nat (length shown)))%Q ∧
      high_confidence stats = length (filter (λ s, (95 ≤ s)%Z) shown)
  | NoDuplicatesFound t => scores = [] ∧ t = 60%Z
  | _ => False
  end.
Proof.
  split; [exact sort_values_merge_ok|]. split; [reflexivity|].
  apply (summary_matches_table fuzz.ratio Sorting.sort_values_merge
           sort_values_merge_ok acme_frame acme_column 60).
  reflexivity.
Defined.

Lemma first_occurrence_order_witness :
  sorts_descending Sorting.sort_values_merge ∧
  let names := company_names acme_column in
  let results := detect fuzz.ratio Sorting.sort_values_merge acme_column 60 in
  (∀ a b, before a b names →
     ∃ i j, first_index a acme_column = Some i
            ∧ first_index b acme_column = Some j ∧ i < j) ∧
  (∀ r, r ∈ results →
     ∃ i j, first_index (company_name_1 r) acme_column = Some i ∧
            first_index (company_name_2 r) acme_column = Some j ∧ i < j).
Proof.
  split; [exact sort_values_merge_ok|].
  exact (first_occurrence_order fuzz.ratio Sorting.sort_values_merge
           sort_values_merge_ok acme_column 60).
Defined.

(** The table that [acme_frame] gives at threshold 60. *)
Example acme_at_60 :
  finder fuzz.ratio Sorting.sort_values_merge (Some acme_frame) 60
  = PotentialDuplicates
      [Duplicate "Acme Inc" "Acme Co" 67]
      {| total_pairs := 1; avg_similarity := 67 # 1; high_confidence := 0 |}.
Proof. by vm_compute. Qed.

(** * Further properties of the script *)

(** ** More on cleaning the column *)

Section CleaningMore.
Implicit Types (col : list cell) (values : list string) (seen : gset string).

Lemma length_unique_from seen values :
  length (unique_from seen values) ≤ length values.
Proof.
  revert seen. induction values as [|w values IH]; intros seen; simpl; [done|].
  destruct (decide (w ∈ seen)); simpl.
  - specialize (IH seen). lia.
  - specialize (IH ({[w]} ∪ seen)). lia.
Qed.

(** Nothing is dropped only when nothing had to be. *)
Lemma unique_from_full seen values :
  length (unique_from seen values) = length values →
  unique_from seen values = values.
Proof.
  revert seen. induction values as [|w values IH]; intros seen; simpl; [done|].
  destruct (decide (w ∈ seen)); simpl.
  - pose proof (length_unique_from seen values). lia.
  - intros [= Hlen]. by rewrite IH.
Qed.

Lemma unique_from_fresh seen values :
  NoDup values → (∀ v, v ∈ values → v ∉ seen) →
  unique_from seen values = values.
Proof.
  intros Hnd. revert seen.
  induction Hnd as [|w values Hw Hnd IH]; intros seen Hfresh; simpl; [done|].
  rewrite decide_False by (apply Hfresh; by left).
  rewrite IH; [done|].
  intros v Hv. rewrite not_elem_of_union, not_elem_of_singleton. split.
  - by intros ->.
  - apply Hfresh. by right.
Qed.

Lemma unique_from_app seen l1 l2 :
  unique_from seen (l1 ++ l2)
  = unique_from seen l1 ++ unique_from (list_to_set l1 ∪ seen) l2.
Proof.
  revert seen. induction l1 as [|w l1 IH]; intros seen; simpl.
  - by rewrite (left_id_L ∅ (∪)).
  - destruct (decide (w ∈ seen)) as [Hw|Hw].
    + rewrite IH. do 2 f_equal. set_solver.
    + simpl. rewrite IH. do 3 f_equal. set_solver.
Qed.

Lemma dropna_app col1 col2 : dropna (col1 ++ col2) = dropna col1 ++ dropna col2.
Proof.
  induction col1 as [|[w|] col1 IH]; simpl; [done| |done].
  by rewrite IH.
Qed.

Lemma length_dropna col : length (dropna col) ≤ length col.
Proof. induction col as [|[w|] col IH]; simpl; lia. Qed.

Lemma dropna_fmap_Some values : dropna (Some <$> values) = values.
Proof.
  induction values as [|w values IH]; [done|].
  rewrite fmap_cons. simpl. by rewrite IH.
Qed.

Lemma dropna_full col :
  length (dropna col) = length col ↔ None ∉ col.
Proof.
  induction col as [|[w|] col IH]; simpl.
  - split; [intros _; apply not_elem_of_nil | done].
  - rewrite not_elem_of_cons, <- IH.
    split; [intros [= Hlen]; by split | intros [_ Hlen]; by rewrite Hlen].
  - pose proof (length_dropna col) as Hle. split; [lia|].
    intros Hnone. destruct Hnone. by left.
Qed.

Lemma fmap_Some_dropna col : None ∉ col → Some <$> dropna col = col.
Proof.
  induction col as [|[w|] col IH]; [done| |].
  - rewrite not_elem_of_cons. intros [_ Hrest].
    cbn [dropna]. rewrite fmap_cons. by rewrite IH.
  - intros Hnone. destruct Hnone. by left.
Qed.

(** X3: the count of unique names announced on line 36 never exceeds the
    number of non-null cells, which never exceeds the number of rows; it
    equals the number of rows exactly when the column has no null and no
    repeated value. *)
Theorem unique_count_bounds col :
  length (company_names col) ≤ length (dropna col) ∧
  length (dropna col) ≤ length col ∧
  (length (company_names col) = length col ↔ (None ∉ col) ∧ NoDup col).
Proof.
  pose proof (length_unique_from ∅ (dropna col)) as H1.
  pose proof (length_dropna col) as H2.
  unfold company_names, unique in *. split_and!; [done|done|]. split.
  - intros Hlen.
    assert (Hd : length (dropna col) = length col) by lia.
    assert (Hu : length (unique_from ∅ (dropna col)) = length (dropna col)) by lia.
    apply dropna_full in Hd. split; [done|].
    rewrite <- (fmap_Some_dropna col Hd).
    apply NoDup_fmap_2; [by intros x y [= ->]|].
    rewrite <- (unique_from_full _ _ Hu). apply NoDup_unique_from.
  - intros [Hnull Hnd].
    rewrite <- (fmap_Some_dropna col Hnull) in Hnd.
    apply NoDup_fmap_1 in Hnd.
    rewrite unique_from_fresh; [by apply dropna_full|done|].
    intros v _. apply not_elem_of_empty.
Qed.

(** X4: cleaning is idempotent: the candidates of the cleaned column are the
    candidates themselves, so running the scan on the cleaned column makes
    the same calls and finds the same rows. *)
Theorem cleaning_is_idempotent (ratio : string → string → Z) col threshold :
  company_names (Some <$> company_names col) = company_names col ∧
  find_duplicates ratio (Some <$> company_names col) threshold
  = find_duplicates ratio col threshold.
Proof.
  assert (H : company_names (Some <$> company_names col) = company_names col).
  { unfold company_names at 1. rewrite dropna_fmap_Some.
    apply unique_from_fresh; [apply NoDup_company_names|].
    intros v _. apply not_elem_of_empty. }
  split; [done|]. unfold find_duplicates. by rewrite H.
Qed.

(** Rows added at the end of the column only add candidates at the end. *)
Lemma company_names_app col more :
  ∃ extra, company_names (col ++ more) = company_names col ++ extra.
Proof.
  unfold company_names, unique. rewrite dropna_app, unique_from_app. eauto.
Qed.
End CleaningMore.

(** ** More on the scan and its report *)

Lemma before_app {A : Type} (a b : A) (l more : list A) :
  before a b l → before a b (l ++ more).
Proof.
  intros (pre & post & -> & Hb). exists pre, (post ++ more). split.
  - by rewrite <- app_assoc.
  - rewrite elem_of_app. by left.
Qed.

Lemma sum_scores_Permutation rows rows' :
  rows ≡ₚ rows' → sum_scores rows = sum_scores rows'.
Proof.
  unfold sum_scores. induction 1; simpl; lia.
Qed.

Lemma sum_scores_at_least (threshold : Z) rows :
  Forall (λ r, threshold ≤ similarity_score r)%Z rows →
  (threshold * Z.of_nat (length rows) ≤ sum_scores rows)%Z.
Proof.
  unfold sum_scores. induction 1 as [|r rows Hr Hrows IH]; simpl; lia.
Qed.

Lemma filter_all {A : Type} (P : A → Prop) `{∀ x, Decision (P x)} (l : list A) :
  Forall P l → filter P l = l.
Proof.
  induction 1 as [|x l Hx Hl IH]; [done|].
  by rewrite filter_cons, decide_True, IH.
Qed.

Section EngineMore.
Variable ratio : string → string → Z.
Variable sort_values : list duplicate → list duplicate.
Hypothesis sort_values_ok : sorts_descending sort_values.

Implicit Types (col : list cell) (threshold : Z) (r : duplicate).

Lemma detect_lookup_le col threshold i j r r' :
  i ≤ j →
  detect ratio sort_values col threshold !! i = Some r →
  detect ratio sort_values col threshold !! j = Some r' →
  (similarity_score r' ≤ similarity_score r)%Z.
Proof.
  pose proof (detect_sorted ratio sort_values sort_values_ok col threshold) as Hs.
  revert i j. induction Hs as [|x l Hs IH Hall]; intros i j Hij Hi Hj; [done|].
  destruct i as [|i], j as [|j]; simpl in *; try lia.
  - assert (r = r') as -> by congruence. lia.
  - injection Hi as ->. apply list_elem_of_lookup_2 in Hj.
    rewrite Forall_forall in Hall. by apply Hall.
  - apply (IH i j); [lia|done|done].
Qed.

Lemma detect_reaches_threshold col threshold :
  Forall (λ r, threshold ≤ similarity_score r)%Z
         (detect ratio sort_values col threshold).
Proof.
  apply Forall_forall. intros r Hr.
  by apply (elem_of_detect ratio sort_values sort_values_ok) in Hr as (_ & _ & Ht).
Qed.

Lemma finder_table df col threshold results_df stats :
  column "Company Name" df = Some col →
  finder ratio sort_values (Some df) threshold
  = PotentialDuplicates results_df stats →
  results_df = detect ratio sort_values col threshold ∧
  stats = statistics results_df ∧ results_df ≠ [].
Proof.
  intros Hcol. unfold detect. simpl. rewrite Hcol. unfold report.
  destruct (duplicates _) as [|r rows] eqn:Hfound; [done|].
  intros [= <- <-]. split_and!; [done|done|].
  destruct sort_values_ok as [Hperm _].
  intros Hnil. pose proof (Hperm (r :: rows)) as Hp.
  rewrite Hnil in Hp. by apply Permutation_nil_cons in Hp.
Qed.

(** X2: a column with fewer than two distinct non-null names is never
    scored: the loop makes no call, and the run ends in the no-duplicates
    message whatever the threshold. *)
Theorem lone_name_never_compared df col threshold :
  column "Company Name" df = Some col →
  length (company_names col) ≤ 1 →
  ratio_calls (find_duplicates ratio col threshold) = [] ∧
  finder ratio sort_values (Some df) threshold = NoDuplicatesFound threshold.
Proof.
  intros Hcol Hlen. simpl. rewrite Hcol.
  rewrite find_duplicates_rows, find_duplicates_calls.
  destruct (company_names col) as [|x [|y names]]; simpl in *; [done|done|lia].
Qed.

(** X5: rows added at the end of the column never remove a reported pair:
    every row of the table for the shorter column is a row of the table for
    the longer one. *)
Theorem appended_rows_keep_pairs col more threshold :
  detect ratio sort_values col threshold
  ⊆ detect ratio sort_values (col ++ more) threshold.
Proof.
  intros r (Hin & Hs & Ht)%(elem_of_detect ratio sort_values sort_values_ok).
  apply (elem_of_detect ratio sort_values sort_values_ok). split_and!; [|done|done].
  destruct (company_names_app col more) as [extra ->].
  apply elem_of_combinations2, before_app. by apply elem_of_combinations2.
Qed.

(** X6: every row shown at a threshold is shown at any lower threshold. *)
Theorem lower_threshold_keeps_rows col (t1 t2 : Z) :
  (t1 ≤ t2)%Z →
  detect ratio sort_values col t2 ⊆ detect ratio sort_values col t1.
Proof.
  intros Ht r (Hin & Hs & Hr)%(elem_of_detect ratio sort_values sort_values_ok).
  apply (elem_of_detect ratio sort_values sort_values_ok). split_and!; [done|done|lia].
Qed.

(** X7: when a table is shown, the high-confidence count is at most the
    total, the total is at most C*(C-1)/2 for C candidates, the average is
    at least the threshold, and from threshold 95 on every pair counts as
    high-confidence. *)
Theorem summary_bounds df col threshold results_df stats :
  column "Company Name" df = Some col →
  finder ratio sort_values (Some df) threshold
  = PotentialDuplicates results_df stats →
  high_confidence stats ≤ total_pairs stats ∧
  total_pairs stats
  ≤ length (company_names col) * (length (company_names col) - 1) / 2 ∧
  (inject_Z threshold <= avg_similarity stats)%Q ∧
  ((95 ≤ threshold)%Z → high_confidence stats = total_pairs stats).
Proof.
  intros Hcol Hrun.
  destruct (finder_table _ _ _ _ _ Hcol Hrun) as (-> & -> & Hne).
  pose proof (detect_reaches_threshold col threshold) as Hall.
  set (rs := detect ratio sort_values col threshold) in *.
  unfold statistics. cbn [total_pairs high_confidence avg_similarity].
  split_and!.
  - apply length_filter.
  - unfold rs.
    rewrite (detect_Permutation ratio sort_values sort_values_ok),
      find_duplicates_rows.
    rewrite <- length_combinations2. unfold passing, scored.
    etrans; [apply length_filter|]. by rewrite length_fmap.
  - unfold mean. apply Qle_shift_div_l.
    + destruct rs; [done|]. reflexivity.
    + rewrite <- inject_Z_mult, <- Zle_Qle. by apply sum_scores_at_least.
  - intros Ht. f_equal. apply filter_all.
    eapply Forall_impl; [exact Hall|]. intros r Hr. simpl in Hr.
    unfold is_high_confidence, high_confidence_cutoff.
    apply bool_decide_eq_true. lia.
Qed.

(** X11: the loop appends in enumeration order: [duplicates] is the list of
    all enumerated pairs with their scores, filtered by the threshold test,
    and the scorer is called on the pairs in that same order. *)
Theorem loop_collects_in_enumeration_order col threshold :
  duplicates (find_duplicates ratio col threshold)
  = filter (λ r, (threshold ≤ similarity_score r)%Z)
      ((λ p, Duplicate p.1 p.2 (ratio (str p.1) (str p.2)))
         <$> combinations2 (company_names col)) ∧
  ratio_calls (find_duplicates ratio col threshold)
  = combinations2 (company_names col).
Proof.
  split; [apply find_duplicates_rows | apply find_duplicates_calls].
Qed.
End EngineMore.

(** ** The colour coding *)

Lemma highlight_very_high (val : Z) :
  highlight_similarity val = very_high_style ↔ (95 ≤ val)%Z.
Proof.
  unfold highlight_similarity.
  destruct (decide (95 ≤ val)%Z); [done|].
  destruct (decide (85 ≤ val)%Z); (split; [discriminate|lia]).
Qed.

Lemma highlight_moderate (val : Z) :
  highlight_similarity val = moderate_style ↔ (val < 85)%Z.
Proof.
  unfold highlight_similarity.
  destruct (decide (95 ≤ val)%Z); [split; [discriminate|lia]|].
  destruct (decide (85 ≤ val)%Z); [split; [discriminate|lia]|].
  split; [lia|done].
Qed.

Lemma severity_highlight (val : Z) :
  severity (highlight_similarity val)
  = if decide (95 ≤ val)%Z then 2 else if decide (85 ≤ val)%Z then 1 else 0.
Proof.
  unfold highlight_similarity.
  destruct (decide (95 ≤ val)%Z); [done|].
  by destruct (decide (85 ≤ val)%Z).
Qed.

Lemma severity_mono (v v' : Z) :
  (v' ≤ v)%Z →
  severity (highlight_similarity v') ≤ severity (highlight_similarity v).
Proof.
  intros Hle. rewrite !severity_highlight.
  repeat case_decide; lia.
Qed.

(** X8: the number of red cells in the styled table is the high-confidence
    metric shown below it. *)
Theorem red_cells_match_metric (results_df : list duplicate) :
  length (filter (λ style, style = very_high_style) (styled_scores results_df))
  = high_confidence (statistics results_df).
Proof.
  unfold statistics, styled_scores. cbn [high_confidence].
  induction results_df as [|r rows IH]; [done|].
  rewrite fmap_cons, !filter_cons.
  assert (Hiff : highlight_similarity (similarity_score r) = very_high_style
                 ↔ is_high_confidence r = true).
  { rewrite highlight_very_high.
    unfold is_high_confidence, high_confidence_cutoff.
    by rewrite bool_decide_eq_true. }
  destruct (decide (highlight_similarity (similarity_score r) = very_high_style)),
           (decide (is_high_confidence r = true)); try tauto.
  cbn [length]. by f_equal.
Qed.

Section Colours.
Variable ratio : string → string → Z.
Variable sort_values : list duplicate → list duplicate.
Hypothesis sort_values_ok : sorts_descending sort_values.

(** X9: down the table the colours only cool: no cell has a stronger colour
    than a cell above it (red, then orange, then yellow). *)
Theorem colours_cool_down (col : list cell) (threshold : Z) (i j : nat)
    (style style' : string) :
  i ≤ j →
  styled_scores (detect ratio sort_values col threshold) !! i = Some style →
  styled_scores (detect ratio sort_values col threshold) !! j = Some style' →
  severity style' ≤ severity style.
Proof.
  unfold styled_scores. rewrite !list_lookup_fmap. intros Hij Hi Hj.
  destruct (detect ratio sort_values col threshold !! i) as [r|] eqn:Hr; [|done].
  destruct (detect ratio sort_values col threshold !! j) as [r'|] eqn:Hr'; [|done].
  simpl in *. injection Hi as <-. injection Hj as <-.
  apply severity_mono.
  by apply (detect_lookup_le ratio sort_values sort_values_ok col threshold i j).
Qed.

(** X10: the threshold limits the colours: from 85 on no cell of the table
    is yellow, and from 95 on every cell is red. *)
Theorem threshold_limits_colours (col : list cell) (threshold : Z) (style : string) :
  style ∈ styled_scores (detect ratio sort_values col threshold) →
  ((85 ≤ threshold)%Z → style ≠ moderate_style) ∧
  ((95 ≤ threshold)%Z → style = very_high_style).
Proof.
  unfold styled_scores. intros (r & -> & Hr)%list_elem_of_fmap.
  apply (elem_of_detect ratio sort_values sort_values_ok) in Hr as (_ & _ & Ht).
  split; intros Hthr.
  - rewrite highlight_moderate. lia.
  - apply highlight_very_high. lia.
Qed.
End Colours.

(** ** The metrics do not depend on how ties are ordered *)

(** X13: two sorts that both return the rows in descending order, whatever
    they do with ties, lead to the same three metrics and to tables with the
    same rows. *)
Theorem metrics_independent_of_tie_order
    (sort1 sort2 : list duplicate → list duplicate) (found : list duplicate) :
  sorts_descending sort1 → sorts_descending sort2 →
  sort1 found ≡ₚ sort2 found ∧
  statistics (sort1 found) = statistics (sort2 found).
Proof.
  intros [Hp1 _] [Hp2 _].
  assert (Hperm : sort1 found ≡ₚ sort2 found) by by rewrite Hp1, Hp2.
  split; [done|]. unfold statistics, mean.
  by rewrite (sum_scores_Permutation _ _ Hperm), Hperm.
Qed.

(** ** The range of the scorer *)

Lemma lcs_le (s t : list ascii) :
  fuzz.lcs s t ≤ length s ∧ fuzz.lcs s t ≤ length t.
Proof.
  revert t. induction s as [|c1 r1 IHs]; intros t; [simpl; lia|].
  induction t as [|c2 r2 IHt]; [simpl; lia|].
  rewrite lcs_cons_cons.
  destruct (decide (c1 = c2)).
  - destruct (IHs r2). simpl. lia.
  - destruct (IHs (c2 :: r2)). destruct IHt. simpl in *. lia.
Qed.

Lemma round_half_even_range (num den : Z) :
  (0 < den)%Z → (0 ≤ num ≤ 100 * den)%Z →
  (0 ≤ fuzz.round_half_even num den ≤ 100)%Z.
Proof.
  intros Hden Hnum. unfold fuzz.round_half_even.
  pose proof (Z.div_mod num den ltac:(lia)) as Hdm.
  pose proof (Z.mod_pos_bound num den Hden) as Hmod.
  assert (0 ≤ num / den ≤ 100)%Z as Hq.
  { split; [apply Z.div_pos; lia|]. apply Z.div_le_upper_bound; lia. }
  assert (num / den = 100 → num mod den = 0)%Z as Htop by nia.
  repeat case_decide; try lia.
  destruct (Z.even (num / den)); lia.
Qed.

(** X12: the modelled scorer stays within 0 and 100. *)
Theorem ratio_in_range (a b : string) : (0 ≤ fuzz.ratio a b ≤ 100)%Z.
Proof.
  unfold fuzz.ratio.
  destruct (lcs_le (list_ascii_of_string a) (list_ascii_of_string b)) as [Ha Hb].
  case_decide; [lia|].
  apply round_half_even_range; lia.
Qed.

(** ** The further properties on the sample inputs *)

Example graded_at_50 :
  detect fuzz.ratio Sorting.sort_values_merge graded_column 50
  = [Duplicate "Acme Incorporated" "Acme Incorporated." 97;
     Duplicate "Acme Incorporated" "Acme Inc" 64;
     Duplicate "Acme Incorporated." "Acme Inc" 62].
Proof. by vm_compute. Qed.

Example nameless_frame_rejected :
  finder fuzz.ratio Sorting.sort_values_merge (Some nameless_frame) 80
  = MissingColumn ["Name"; "City"]%string.
Proof. by vm_compute. Qed.

Lemma lone_name_never_compared_witness :
  column "Company Name" lone_frame = Some lone_column ∧
  length (company_names lone_column) ≤ 1 ∧
  ratio_calls (find_duplicates fuzz.ratio lone_column 50) = [] ∧
  finder fuzz.ratio Sorting.sort_values_merge (Some lone_frame) 50
  = NoDuplicatesFound 50.
Proof.
  assert (Hlen : length (company_names lone_column) ≤ 1).
  { replace (company_names lone_column) with ["Acme"%string] by (by vm_compute).
    simpl. lia. }
  split; [reflexivity|]. split; [exact Hlen|].
  exact (lone_name_never_compared fuzz.ratio Sorting.sort_values_merge
           lone_frame lone_column 50 eq_refl Hlen).
Defined.

Lemma appended_rows_keep_pairs_witness :
  sorts_descending Sorting.sort_values_merge ∧
  detect fuzz.ratio Sorting.sort_values_merge acme_column 60
  ⊆ detect fuzz.ratio Sorting.sort_values_merge
      (acme_column ++ [Some "Acme Corp"; None]%string) 60.
Proof.
  split; [exact sort_values_merge_ok|].
  exact (appended_rows_keep_pairs fuzz.ratio Sorting.sort_values_merge
           sort_values_merge_ok acme_column [Some "Acme Corp"; None]%string 60).
Defined.

Lemma lower_threshold_keeps_rows_witness :
  sorts_descending Sorting.sort_values_merge ∧ (60 ≤ 95)%Z ∧
  detect fuzz.ratio Sorting.sort_values_merge graded_column 95
  ⊆ detect fuzz.ratio Sorting.sort_values_merge graded_column 60.
Proof.
  split; [exact sort_values_merge_ok|]. split; [lia|].
  apply (lower_threshold_keeps_rows fuzz.ratio Sorting.sort_values_merge
           sort_values_merge_ok graded_column 60 95).
  lia.
Defined.

Lemma summary_bounds_witness :
  sorts_descending Sorting.sort_values_merge ∧
  column "Company Name" acme_frame = Some acme_column ∧
  let results_df := [Duplicate "Acme Inc" "Acme Co" 67] in
  let stats :=
    {| total_pairs := 1; avg_similarity := 67 # 1; high_confidence := 0 |} in
  finder fuzz.ratio Sorting.sort_values_merge (Some acme_frame) 60
  = PotentialDuplicates results_df stats ∧
  high_confidence stats ≤ total_pairs stats ∧
  total_pairs stats
  ≤ length (company_names acme_column)
    * (length (company_names acme_column) - 1) / 2 ∧
  (inject_Z 60 <= avg_similarity stats)%Q ∧
  ((95 ≤ 60)%Z → high_confidence stats = total_pairs stats).
Proof.
  split; [exact sort_values_merge_ok|]. split; [reflexivity|].
  intros results_df stats. split; [exact acme_at_60|].
  exact (summary_bounds fuzz.ratio Sorting.sort_values_merge sort_values_merge_ok
           acme_frame acme_column 60 results_df stats eq_refl acme_at_60).
Defined.

Lemma colours_cool_down_witness :
  sorts_descending Sorting.sort_values_merge ∧ 0 ≤ 1 ∧
  styled_scores (detect fuzz.ratio Sorting.sort_values_merge graded_column 50) !! 0
  = Some very_high_style ∧
  styled_scores (detect fuzz.ratio Sorting.sort_values_merge graded_column 50) !! 1
  = Some moderate_style ∧
  severity moderate_style ≤ severity very_high_style.
Proof.
  assert (H0 : styled_scores
      (detect fuzz.ratio Sorting.sort_values_merge graded_column 50) !! 0
      = Some very_high_style) by (by vm_compute).
  assert (H1 : styled_scores
      (detect fuzz.ratio Sorting.sort_values_merge graded_column 50) !! 1
      = Some moderate_style) by (by vm_compute).
  assert (H01 : 0 ≤ 1) by lia.
  split; [exact sort_values_merge_ok|].
  split; [exact H01|]. split; [exact H0|]. split; [exact H1|].
  exact (colours_cool_down fuzz.ratio Sorting.sort_values_merge
           sort_values_merge_ok graded_column 50 0 1 _ _ H01 H0 H1).
Defined.

Lemma threshold_limits_colours_witness :
  sorts_descending Sorting.sort_values_merge ∧
  very_high_style
  ∈ styled_scores (detect fuzz.ratio Sorting.sort_values_merge graded_column 95) ∧
  ((85 ≤ 95)%Z → very_high_style ≠ moderate_style) ∧
  ((95 ≤ 95)%Z → very_high_style = very_high_style).
Proof.
  assert (Hin : very_high_style
    ∈ styled_scores (detect fuzz.ratio Sorting.sort_values_merge graded_column 95)).
  { replace (styled_scores _) with [very_high_style] by (by vm_compute).
    apply list_elem_of_here. }
  split; [exact sort_values_merge_ok|]. split; [exact Hin|].
  exact (threshold_limits_colours fuzz.ratio Sorting.sort_values_merge
           sort_values_merge_ok graded_column 95 very_high_style Hin).
Defined.

Lemma metrics_independent_of_tie_order_witness :
  sorts_descending Sorting.sort_values_merge ∧
  sorts_descending Sorting.sort_values_flip ∧
  let found := duplicates (find_duplicates fuzz.ratio tied_column 50) in
  Sorting.sort_values_merge found ≡ₚ Sorting.sort_values_flip found ∧
  statistics (Sorting.sort_values_merge found)
  = statistics (Sorting.sort_values_flip found).
Proof.
  split; [exact sort_values_merge_ok|]. split; [exact sort_values_flip_ok|].
  exact (metrics_independent_of_tie_order Sorting.sort_values_merge
           Sorting.sort_values_flip
           (duplicates (find_duplicates fuzz.ratio tied_column 50))
           sort_values_merge_ok sort_values_flip_ok).
Defined.
